(** * Encore: service-to-service authentication and experiment sets

    A shallow embedding of two Go packages of the Encore repository,

    - [svcauth]     (runtime/appruntime/apisdk/api/svcauth/pkgfn.go): the
      entry points [Sign] and [Verify] of the service-to-service
      authentication layer;
    - [experiments] (pkg/experiments/experiment.go): the set of enabled
      experiments, built from the app file and the environment,

    followed by the properties of both packages. *)

From Stdlib Require Import Ascii String.
From stdpp Require Import base decidable option list strings gmap sorting.

(** ** Go errors

    A Go [error] is an interface value; [nil] is [None] of [option error].
    The constructors are the dynamic types that occur: what [errors.New]
    and a [fmt.Errorf] without [%w] build, what a [fmt.Errorf] with one
    [%w] builds, and a value of any other error type, known only by the
    name of its type and its message. *)
Module errors.

Inductive error : Type :=
  | errorString (s : string)
  | wrapError (msg : string) (err : error)
  | otherError (type_name : string) (msg : string).

(** [err.Error()] *)
Definition Error (e : error) : string :=
  match e with
  | errorString s => s
  | wrapError msg _ => msg
  | otherError _ msg => msg
  end.

(** [errors.Unwrap(err)] *)
Definition Unwrap (e : error) : option error :=
  match e with
  | wrapError _ err => Some err
  | _ => None
  end.

(** [fmt.Errorf(prefix + "%w", err)]: the message is the formatted text,
    the cause stays reachable through [Unwrap]. *)
Definition Errorf_w (prefix : string) (err : error) : error :=
  wrapError (prefix +:+ Error err) err.

(** [fmt.Errorf(prefix + "%s", s)]: no [%w], hence a plain [errorString]. *)
Definition Errorf_s (prefix : string) (s : string) : error :=
  errorString (prefix +:+ s).

End errors.
Export errors.

(** ** The transport collaborator *)
Module transport.

(** Modelled from the spec: the interface [transport.Transport] is declared
    in a package that is not part of the sources at hand.  The spec gives
    it as a key/value store attached to a request, with
    [SetMeta(key, value)] and [ReadMeta(key) -> (value, found)]; a request
    is a value of [T], [SetMeta] returns the updated request and
    [ReadMeta] returns [Some value] exactly when [found] is true. *)
Class Transport (T : Type) : Type := {
  SetMeta : string → string → T → T;
  ReadMeta : string → T → option string;
}.

(** Modelled from the spec: the carrier is "assumed to preserve values
    unmodified": an entry that was set is read back as it was set. *)
Class TransportLaws (T : Type) `{Transport T} : Prop := {
  ReadMeta_SetMeta : ∀ key value (req : T),
    ReadMeta key (SetMeta key value req) = Some value;
}.

End transport.
Export transport.

(** ** Package svcauth *)
Module svcauth.

Definition AuthMethodMetaKey : string := "Svc-Auth-Method".

Section pkgfn.
Context {T : Type} `{Transport T}.

(** The interface [ServiceAuth]: three methods.  A request is passed by
    reference in Go, so [sign] and [verify] return the request as they
    leave it next to their [error] result; either may have changed the
    request also when it fails. *)
Record ServiceAuth : Type := {
  method : string;
  sign : T → option error * T;
  verify : T → option error * T;
}.

(** What the two package functions do to their collaborators, in order. *)
Inductive event : Type :=
  | ev_sign (m : ServiceAuth)
  | ev_verify (m : ServiceAuth)
  | ev_SetMeta (key value : string)
  | ev_ReadMeta (key : string).

(** The state the package functions run in: the request they were handed
    and the record of the calls they made so far. *)
Record world : Type := World {
  request : T;
  calls : list event;
}.

Definition init (req : T) : world := World req [].

(** A computation over [world]. *)
Definition run (A : Type) : Type := world → A * world.

#[local] Instance run_ret : MRet run := λ A (a : A) w, (a, w).
#[local] Instance run_bind : MBind run := λ A B (f : A → run B) (c : run A) w,
  let '(a, w') := c w in f a w'.

(** [method.sign(req)] *)
Definition call_sign (m : ServiceAuth) : run (option error) := λ w,
  let '(err, req) := sign m (request w) in
  (err, World req (calls w ++ [ev_sign m])).

(** [authMethod.verify(req)] *)
Definition call_verify (m : ServiceAuth) : run (option error) := λ w,
  let '(err, req) := verify m (request w) in
  (err, World req (calls w ++ [ev_verify m])).

(** [req.SetMeta(key, value)] *)
Definition call_SetMeta (key value : string) : run unit := λ w,
  (tt, World (SetMeta key value (request w)) (calls w ++ [ev_SetMeta key value])).

(** [req.ReadMeta(key)] *)
Definition call_ReadMeta (key : string) : run (option string) := λ w,
  (ReadMeta key (request w), World (request w) (calls w ++ [ev_ReadMeta key])).

(** [func Sign(method ServiceAuth, req transport.Transport) error] *)
Definition Sign (m : ServiceAuth) : run (option error) :=
  err ← call_sign m;
  match err with
  | Some err => mret (Some (Errorf_w "failed to sign request: " err))
  | None =>
      _ ← call_SetMeta AuthMethodMetaKey (method m);
      mret None
  end.

(** The [for ... range loadedAuthMethods] loop of [Verify] together with
    the [return] that follows it; [name] is the declared method. *)
Fixpoint Verify_range (name : string) (loadedAuthMethods : list ServiceAuth)
    : run (bool * option error) :=
  match loadedAuthMethods with
  | [] =>
      mret (false, Some (Errorf_s
        "unknown service to service authentication method: " name))
  | authMethod :: rest =>
      if decide (method authMethod = name) then
        err ← call_verify authMethod;
        match err with
        | Some err =>
            mret (false, Some (Errorf_w "failed to verify request: " err))
        | None => mret (true, None)
        end
      else Verify_range name rest
  end.

(** [func Verify(req transport.Transport, loadedAuthMethods ...ServiceAuth)
    (internalCall bool, err error)] *)
Definition Verify (loadedAuthMethods : list ServiceAuth)
    : run (bool * option error) :=
  found ← call_ReadMeta AuthMethodMetaKey;
  match found with
  | None => mret (false, None)
  | Some name => Verify_range name loadedAuthMethods
  end.

(** The three errors the package builds, under the names the design gives
    to their classes. *)
Definition SigningFailure (cause : error) : error :=
  Errorf_w "failed to sign request: " cause.
Definition VerificationFailure (cause : error) : error :=
  Errorf_w "failed to verify request: " cause.
Definition UnknownMethod (name : string) : error :=
  Errorf_s "unknown service to service authentication method: " name.

(** The request as [Sign] leaves it, and the results of the two entry
    points on a request taken on its own. *)
Definition Sign_err (m : ServiceAuth) (req : T) : option error :=
  (Sign m (init req)).1.
Definition Sign_req (m : ServiceAuth) (req : T) : T :=
  request (Sign m (init req)).2.
Definition Sign_calls (m : ServiceAuth) (req : T) : list event :=
  calls (Sign m (init req)).2.
Definition Verify_result (req : T) (ms : list ServiceAuth) : bool * option error :=
  (Verify ms (init req)).1.
Definition Verify_calls (req : T) (ms : list ServiceAuth) : list event :=
  calls (Verify ms (init req)).2.

(** The methods whose [verify] was invoked, in order. *)
Definition verify_invocations (evs : list event) : list ServiceAuth :=
  omap (λ ev, match ev with ev_verify m => Some m | _ => None end) evs.

(** "[m]'s verify operation accepts any request [m] itself signed": every
    request that went through a successful [Sign] with [m] is accepted by
    [m]'s [verify]. *)
Definition verifies_own_signatures (m : ServiceAuth) : Prop :=
  ∀ req, (sign m req).1 = None → (verify m (Sign_req m req)).1 = None.

End pkgfn.
Arguments ServiceAuth T : clear implicits.
Arguments event T : clear implicits.
Arguments world T : clear implicits.

End svcauth.

(** ** Package experiments *)
Module experiments.

(** The few functions of Go's [strings] package the code calls, on byte
    strings. *)
Module strings.

(** [strings.HasPrefix(s, prefix)] *)
Definition HasPrefix (s prefix : string) : bool := String.prefix prefix s.

(** [s[n:]], for [n] at most the length of [s] *)
Fixpoint slice_from (n : nat) (s : string) : string :=
  match n, s with
  | O, _ => s
  | S n', String _ s' => slice_from n' s'
  | S _, EmptyString => EmptyString
  end.

(** whether the byte [c] occurs in [cutset] *)
Fixpoint in_cutset (cutset : string) (c : ascii) : bool :=
  match cutset with
  | EmptyString => false
  | String a cutset' => if decide (a = c) then true else in_cutset cutset' c
  end.

Fixpoint TrimLeft (s cutset : string) : string :=
  match s with
  | EmptyString => EmptyString
  | String a s' => if in_cutset cutset a then TrimLeft s' cutset else s
  end.

Fixpoint TrimRight (s cutset : string) : string :=
  match s with
  | EmptyString => EmptyString
  | String a s' =>
      match TrimRight s' cutset with
      | EmptyString => if in_cutset cutset a then EmptyString else String a EmptyString
      | t => String a t
      end
  end.

(** [strings.Trim(s, cutset)]: all leading and trailing bytes of [cutset]
    removed *)
Definition Trim (s cutset : string) : string :=
  TrimLeft (TrimRight s cutset) cutset.

(** [strings.Split(s, sep)] for a separator [sep] of one byte: the pieces
    between the separators, one more than there are separators, so the
    empty string splits into one empty piece. *)
Fixpoint Split (s : string) (sep : ascii) : list string :=
  match s with
  | EmptyString => [EmptyString]
  | String a s' =>
      if decide (a = sep) then EmptyString :: Split s' sep
      else match Split s' sep with
           | piece :: pieces => String a piece :: pieces
           | [] => [String a EmptyString]
           end
  end.

End strings.

Definition envName : string := "ENCORE_EXPERIMENT".

(** [type Name string] *)
Abbreviation Name := string (only parsing).

Definition LocalSecretsOverride : Name := "local-secrets-override".
Definition Metrics : Name := "metrics".
Definition V2 : Name := "v2".
Definition BetaRuntime : Name := "beta-runtime".
Definition ExternalCalls : Name := "external-calls".

(** [func (x Name) Valid() bool] *)
Definition Valid (x : Name) : bool :=
  if decide (x = LocalSecretsOverride) then true
  else if decide (x = Metrics) then true
  else if decide (x = V2) then true
  else if decide (x = BetaRuntime) then true
  else if decide (x = ExternalCalls) then true
  else false.

(** [type Set struct { experiments map[Name]bool }]; a [*Set] is an
    [option Set_], [nil] being [None]. *)
Record Set_ : Type := mkSet {
  experiments : gmap Name bool;
}.

(** [type UnknownExperimentError struct { Name Name }] *)
Record UnknownExperimentError : Type := mkUnknownExperimentError {
  error_Name : Name;
}.

(** [func (e *UnknownExperimentError) Error() string] *)
Definition Error (e : UnknownExperimentError) : string :=
  "unknown experiment: " +:+ error_Name e.

(** [func (x Name) Enabled(set *Set) bool]; reading a Go map at a key it
    does not hold gives the zero value [false]. *)
Definition Enabled (x : Name) (set : option Set_) : bool :=
  match set with
  | None => false
  | Some set => default false (experiments set !! x)
  end.

(** [maps.Keys(m)]: the keys of [m], in an order Go leaves open *)
Definition maps_Keys (m : gmap Name bool) : list Name := (map_to_list m).*1.

(** [slices.Sort(names)]: ascending in Go's [<] on strings, which compares
    byte by byte *)
Definition slices_Sort (names : list Name) : list Name :=
  merge_sort String.le names.

(** [func (s *Set) List() []Name]; a [nil] slice is the empty list. *)
Definition List (s : option Set_) : list Name :=
  match s with
  | None => []
  | Some s => slices_Sort (maps_Keys (experiments s))
  end.

(** [func (s *Set) StringList() []string] *)
Definition StringList (s : option Set_) : list string :=
  (λ n : Name, n : string) <$> List s.

(** [func (s *Set) add(keys ...Name) error]: the map is updated in place,
    so it is returned as [add] leaves it, also when [add] stops with an
    error. *)
Fixpoint add (keys : list Name) (s : gmap Name bool)
    : option UnknownExperimentError * gmap Name bool :=
  match keys with
  | [] => (None, s)
  | key :: keys' =>
      if decide (key = "") then add keys' s
      else if negb (Valid key) then (Some (mkUnknownExperimentError key), s)
      else add keys' (<[key := true]> s)
  end.

(** The cutset of [parseEnvVal]: a double quote and a single quote. *)
Definition quotes : string := String "034"%char (String "'"%char EmptyString).

(** [func parseEnvVal(val string) []Name] *)
Definition parseEnvVal (val : string) : list Name :=
  if decide (val = "") then []
  else
    let val := strings.Trim val quotes in
    let strs := strings.Split val ","%char in
    (λ s : string, s : Name) <$> strs.

Section NewSet.
(** [os.Getenv]: the environment of the process, which gives the empty
    string for a variable that is not set. *)
Variable Getenv : string → string.

Definition prefix : string := envName +:+ "=".

(** The last loop of [NewSet], over the environment of the caller. *)
Fixpoint NewSet_range (environ : list string) (s : gmap Name bool)
    : option UnknownExperimentError * gmap Name bool :=
  match environ with
  | [] => (None, s)
  | env :: environ' =>
      if strings.HasPrefix env prefix then
        let val := strings.slice_from (String.length prefix) env in
        match add (parseEnvVal val) s with
        | (Some err, s') => (Some err, s')
        | (None, s') => NewSet_range environ' s'
        end
      else NewSet_range environ' s
  end.

(** [func NewSet(fromAppFile []Name, environ []string)], which returns a
    [*Set] and an [error] *)
Definition NewSet (fromAppFile : list Name) (environ : list string)
    : option Set_ * option UnknownExperimentError :=
  let set : gmap Name bool := ∅ in
  match add fromAppFile set with
  | (Some err, _) => (None, Some err)
  | (None, set) =>
      let val := Getenv envName in
      match (if decide (val ≠ "") then add (parseEnvVal val) set
             else (None, set)) with
      | (Some err, _) => (None, Some err)
      | (None, set) =>
          match NewSet_range environ set with
          | (Some err, _) => (None, Some err)
          | (None, set) => (Some (mkSet set), None)
          end
      end
  end.

(** The flag names [NewSet] is given, in the order it reads them: the app
    file, the variable of the process, the entries of [environ]. *)
Definition environ_keys (env : string) : list Name :=
  if strings.HasPrefix env prefix
  then parseEnvVal (strings.slice_from (String.length prefix) env)
  else [].

Definition input_keys (fromAppFile : list Name) (environ : list string)
    : list Name :=
  fromAppFile
  ++ (if decide (Getenv envName ≠ "") then parseEnvVal (Getenv envName) else [])
  ++ concat (environ_keys <$> environ).

End NewSet.

(** The map [s] with every non-empty name of [keys] enabled. *)
Definition enable (keys : list Name) (s : gmap Name bool) : gmap Name bool :=
  foldl (λ s key, if decide (key = "") then s else <[key := true]> s) s keys.

(** A flag name that is not empty and not a known experiment. *)
Definition unknown (key : Name) : bool :=
  bool_decide (key ≠ "") && negb (Valid key).

(** An environment of the process in which [ENCORE_EXPERIMENT] has the
    value [val] (not set, when [val] is empty). *)
Definition env_with (val : string) : string → string :=
  λ name, if decide (name = envName) then val else "".

(** Whether [s] is made of bytes of [cutset] only. *)
Fixpoint only_of (cutset s : string) : bool :=
  match s with
  | EmptyString => true
  | String a s' => strings.in_cutset cutset a && only_of cutset s'
  end.

(** Ascending and different: the order [slices.Sort] leaves between two
    places of a list without repeats. *)
Definition Name_lt (a b : Name) : Prop := String.le a b ∧ a ≠ b.

End experiments.

(** ** Stand-ins for the collaborators

    The sources hold neither an implementation of [transport.Transport]
    nor one of [ServiceAuth]; the ones below serve to run [Sign] and
    [Verify] on concrete requests. *)
Module standins.
Import svcauth.

(** A request: its metadata entries and its body. *)
Record req : Type := Req {
  meta : gmap string string;
  body : string;
}.

#[export] Instance req_Transport : Transport req := {|
  SetMeta key value r := Req (<[key := value]> (meta r)) (body r);
  ReadMeta key r := meta r !! key;
|}.

(** A method that signs nothing and accepts every request. *)
Definition noop : ServiceAuth req := {|
  method := "noop";
  sign r := (None, r);
  verify r := (None, r);
|}.

(** A method that attaches, under ["Svc-Auth"], a tag made of its secret
    and the body, and accepts a request that carries this tag.  Without a
    secret it cannot sign. *)
Definition tag_of (secret : string) (r : req) : string :=
  secret +:+ ":" +:+ body r.

Definition tagged (name secret : string) : ServiceAuth req := {|
  method := name;
  sign r :=
    if decide (secret = "") then (Some (errorString "missing secret"), r)
    else (None, SetMeta "Svc-Auth" (tag_of secret r) r);
  verify r :=
    if decide (ReadMeta "Svc-Auth" r = Some (tag_of secret r)) then (None, r)
    else (Some (errorString "bad signature"), r);
|}.

Definition hmac_v1 : ServiceAuth req := tagged "hmac-v1" "s3cr3t".
Definition hmac_v2 : ServiceAuth req := tagged "hmac-v2" "n3w s3cr3t".
Definition orders_42 : req := Req ∅ "GET /orders/42".

(** The request [orders_42] once signed, and the same with another body. *)
Definition signed_42 : req := Sign_req hmac_v1 orders_42.
Definition tampered_43 : req := Req (meta signed_42) "GET /orders/43".

End standins.

(** * Properties of package svcauth *)
Module svcauth_spec.
Import svcauth.

(** Unfolds the computations over [world] down to pairs. *)
Ltac run_unfold :=
  unfold Sign_err, Sign_req, Sign_calls, Verify_result, Verify_calls,
    Sign, Verify, call_sign, call_verify, call_SetMeta, call_ReadMeta,
    mbind, run_bind, mret, run_ret, init in *; simpl in *.

Section pkgfn.
Context {T : Type} `{Transport T}.
Implicit Types (m M : ServiceAuth T) (req R : T) (ms : list (ServiceAuth T)).

(** *** What [Sign] does, case by case *)

Lemma Sign_success m req req' :
  sign m req = (None, req') →
  Sign m (init req) =
    (None, World (SetMeta AuthMethodMetaKey (method m) req')
                 [ev_sign m; ev_SetMeta AuthMethodMetaKey (method m)]).
Proof. intros Hs. run_unfold. by rewrite Hs. Qed.

Lemma Sign_failure m req req' cause :
  sign m req = (Some cause, req') →
  Sign m (init req) =
    (Some (Errorf_w "failed to sign request: " cause),
     World req' [ev_sign m]).
Proof. intros Hs. run_unfold. by rewrite Hs. Qed.

Lemma Sign_req_success m req :
  (sign m req).1 = None →
  Sign_req m req = SetMeta AuthMethodMetaKey (method m) (sign m req).2.
Proof.
  destruct (sign m req) as [err req'] eqn:Hs; simpl; intros ->.
  unfold Sign_req. by rewrite (Sign_success _ _ _ Hs).
Qed.

(** *** What [Verify] does, case by case *)

Lemma Verify_declared req name ms :
  ReadMeta AuthMethodMetaKey req = Some name →
  Verify ms (init req) =
    Verify_range name ms (World req [ev_ReadMeta AuthMethodMetaKey]).
Proof. intros Hr. run_unfold. by rewrite Hr. Qed.

Lemma Verify_not_declared req ms :
  ReadMeta AuthMethodMetaKey req = None →
  Verify ms (init req) =
    ((false, None), World req [ev_ReadMeta AuthMethodMetaKey]).
Proof. intros Hr. run_unfold. by rewrite Hr. Qed.

(** The loop passes over the methods of another name. *)
Lemma Verify_range_skip name pre ms w :
  Forall (λ x, method x ≠ name) pre →
  Verify_range name (pre ++ ms) w = Verify_range name ms w.
Proof.
  induction 1 as [|x pre Hx _ IH]; simpl; [done|].
  by destruct (decide (method x = name)).
Qed.

Lemma Verify_range_next name x ms w :
  method x ≠ name →
  Verify_range name (x :: ms) w = Verify_range name ms w.
Proof. intros Hx. simpl. by destruct (decide (method x = name)). Qed.

Lemma Verify_range_unknown name ms w :
  Forall (λ x, method x ≠ name) ms →
  Verify_range name ms w =
    ((false, Some (Errorf_s
        "unknown service to service authentication method: " name)), w).
Proof.
  intros Hms. rewrite <-(app_nil_r ms). by rewrite Verify_range_skip.
Qed.

Lemma Verify_range_match name m post w :
  method m = name →
  Verify_range name (m :: post) w =
    (match (verify m (request w)).1 with
     | Some cause =>
         (false, Some (Errorf_w "failed to verify request: " cause))
     | None => (true, None)
     end,
     World (verify m (request w)).2 (calls w ++ [ev_verify m])).
Proof.
  intros Hm. simpl. destruct (decide (method m = name)); [|done].
  run_unfold. by destruct (verify m (request w)) as [[cause|] req'].
Qed.

(** Every list of methods either holds no method of the declared name or
    splits at the first one that has it. *)
Lemma first_match name ms :
  Forall (λ x, method x ≠ name) ms
  ∨ ∃ pre m post, ms = pre ++ m :: post
      ∧ Forall (λ x, method x ≠ name) pre ∧ method m = name.
Proof.
  induction ms as [|x ms IH]; [by left|].
  destruct (decide (method x = name)) as [Hx|Hx].
  - right. by exists [], x, ms.
  - destruct IH as [IH|(pre & m & post & -> & Hpre & Hm)].
    + left. by constructor.
    + right. exists (x :: pre), m, post. split_and!; [done| |done].
      by constructor.
Qed.

(** With names that are all different, the method of the declared name is
    the first one that has it. *)
Lemma first_match_NoDup name m ms :
  NoDup (method <$> ms) → m ∈ ms → method m = name →
  ∃ pre post, ms = pre ++ m :: post ∧ Forall (λ x, method x ≠ name) pre.
Proof.
  intros Hnd [pre [post ->]]%list_elem_of_split Hm.
  exists pre, post. split; [done|].
  rewrite fmap_app, fmap_cons in Hnd.
  apply NoDup_app in Hnd as (_ & Hdisj & _).
  apply Forall_forall. intros x Hx Hname.
  apply (Hdisj (method x)).
  - by apply list_elem_of_fmap_2.
  - rewrite Hname, <-Hm. left.
Qed.

(** The result of [Verify] when the scan finds a method of the declared
    name: the verdict of the first such method. *)
Lemma Verify_result_first_match R name pre m post :
  ReadMeta AuthMethodMetaKey R = Some name →
  Forall (λ x, method x ≠ name) pre →
  method m = name →
  Verify_result R (pre ++ m :: post) =
    match (verify m R).1 with
    | Some cause => (false, Some (VerificationFailure cause))
    | None => (true, None)
    end.
Proof.
  intros Hr Hpre Hm. unfold Verify_result.
  rewrite (Verify_declared _ name) by done.
  by rewrite Verify_range_skip, Verify_range_match.
Qed.

(** Where the loaded methods have names that are all different, "the
    method of the declared name" is any method of the list with that
    name. *)
Lemma Verify_result_unique_names R name m ms cause :
  NoDup (method <$> ms) →
  ReadMeta AuthMethodMetaKey R = Some name →
  m ∈ ms →
  method m = name →
  (verify m R).1 = Some cause →
  Verify_result R ms = (false, Some (VerificationFailure cause)).
Proof.
  intros Hnd Hr Hin Hm Hv.
  destruct (first_match_NoDup name m ms Hnd Hin Hm) as (pre & post & -> & Hpre).
  rewrite (Verify_result_first_match _ name) by done. by rewrite Hv.
Qed.

(** *** The properties *)

(** C1. When [M]'s sign operation succeeds on [R] and [M]'s verify
    operation accepts every request that [M] signed, [Sign] with [M] on
    [R] returns no error and [Verify] on the signed request with [M] as
    the only loaded method returns internalCall = true and no error. *)
Theorem Sign_then_Verify `{!TransportLaws T} M R :
  (sign M R).1 = None →
  verifies_own_signatures M →
  Sign_err M R = None
  ∧ Verify_result (Sign_req M R) [M] = (true, None).
Proof.
  intros Hs Hown. split.
  - destruct (sign M R) as [err R'] eqn:HsR; simpl in Hs; subst err.
    unfold Sign_err. by rewrite (Sign_success _ _ _ HsR).
  - specialize (Hown R Hs). unfold Verify_result.
    rewrite (Verify_declared _ (method M)).
    + rewrite Verify_range_match by done. simpl. by rewrite Hown.
    + rewrite Sign_req_success by done. apply ReadMeta_SetMeta.
Qed.

(** C2. On a request without an entry under ["Svc-Auth-Method"], [Verify]
    returns internalCall = false and a nil error, whatever the list of
    loaded methods, the empty one included; no verify operation is
    invoked. *)
Theorem Verify_without_marker R ms :
  ReadMeta AuthMethodMetaKey R = None →
  Verify_result R ms = (false, None)
  ∧ Verify_result R [] = (false, None)
  ∧ verify_invocations (Verify_calls R ms) = [].
Proof.
  intros Hr. unfold Verify_result, Verify_calls.
  by rewrite !Verify_not_declared.
Qed.

(** C3. When the declared name is the name of a loaded method, the one
    the scan reaches first, and the verify operation of that method
    fails with [cause], [Verify] returns internalCall = false with an
    error that wraps [cause] as a verification failure; the outcome
    differs from the one of a call that is not internal, (false, nil). *)
Theorem Verify_reports_verification_failure R name pre m post cause :
  ReadMeta AuthMethodMetaKey R = Some name →
  Forall (λ x, method x ≠ name) pre →
  method m = name →
  (verify m R).1 = Some cause →
  Verify_result R (pre ++ m :: post) = (false, Some (VerificationFailure cause))
  ∧ Unwrap (VerificationFailure cause) = Some cause
  ∧ Verify_result R (pre ++ m :: post) ≠ (false, None).
Proof.
  intros Hr Hpre Hm Hv.
  assert (Verify_result R (pre ++ m :: post)
          = (false, Some (VerificationFailure cause))) as Hres.
  { rewrite (Verify_result_first_match _ name) by done. by rewrite Hv. }
  split_and!; [done|done|by rewrite Hres].
Qed.

(** C4. When the declared name is the name of no loaded method, [Verify]
    returns internalCall = false and the unknown-method error, which
    carries the declared name; so it is for a request signed with [M1]
    and verified against [M2] of another name.  The unknown-method error
    is no verification failure: it wraps nothing, and neither the error
    nor its message is that of a verification failure. *)
Theorem Verify_reports_unknown_method `{!TransportLaws T} :
  (∀ R name ms,
     ReadMeta AuthMethodMetaKey R = Some name →
     Forall (λ x, method x ≠ name) ms →
     Verify_result R ms = (false, Some (UnknownMethod name)))
  ∧ (∀ M1 M2 R,
       (sign M1 R).1 = None →
       method M1 ≠ method M2 →
       Verify_result (Sign_req M1 R) [M2]
       = (false, Some (UnknownMethod (method M1))))
  ∧ (∀ name,
       Error (UnknownMethod name)
       = "unknown service to service authentication method: " +:+ name
       ∧ Unwrap (UnknownMethod name) = None
       ∧ ∀ cause,
           Unwrap (VerificationFailure cause) = Some cause
           ∧ UnknownMethod name ≠ VerificationFailure cause
           ∧ Error (UnknownMethod name) ≠ Error (VerificationFailure cause)).
Proof.
  assert (∀ R name ms,
     ReadMeta AuthMethodMetaKey R = Some name →
     Forall (λ x, method x ≠ name) ms →
     Verify_result R ms = (false, Some (UnknownMethod name))) as Hgen.
  { intros R name ms Hr Hms. unfold Verify_result.
    rewrite (Verify_declared _ name) by done.
    by rewrite Verify_range_unknown. }
  split_and!; [done| |].
  - intros M1 M2 R Hs Hne. apply Hgen.
    + rewrite Sign_req_success by done. apply ReadMeta_SetMeta.
    + constructor; [congruence|constructor].
  - intros name. split_and!; [done..|].
    intros cause. split_and!; [done|done|].
    intros Heq. cbv in Heq. discriminate Heq.
Qed.

(** C5. When [M]'s sign operation fails on [R] with [cause], [Sign]
    returns an error that wraps [cause] behind the text "failed to sign
    request: ", and [Sign] does not write the entry under
    ["Svc-Auth-Method"]: its only call is the one to [M]'s sign operation,
    it leaves the request as that operation left it, and where that
    operation left the entry alone the entry is as before the call. *)
Theorem Sign_failure_writes_no_marker M R cause :
  (sign M R).1 = Some cause →
  Sign_err M R = Some (SigningFailure cause)
  ∧ Unwrap (SigningFailure cause) = Some cause
  ∧ Error (SigningFailure cause) = "failed to sign request: " +:+ Error cause
  ∧ Sign_calls M R = [ev_sign M]
  ∧ Sign_req M R = (sign M R).2
  ∧ (ReadMeta AuthMethodMetaKey (sign M R).2 = ReadMeta AuthMethodMetaKey R →
     ReadMeta AuthMethodMetaKey (Sign_req M R) = ReadMeta AuthMethodMetaKey R).
Proof.
  destruct (sign M R) as [err R'] eqn:Hs; simpl; intros ->.
  unfold Sign_err, Sign_calls, Sign_req.
  rewrite (Sign_failure _ _ _ _ Hs). by split_and!.
Qed.

(** C6. On a request that declares a method name, [Verify] invokes the
    verify operation of at most one method: of none when no loaded method
    has exactly the declared name, and otherwise of the first method in
    the list whose name equals the declared name, and of no other, whether
    that verification succeeds or fails. *)
Theorem Verify_invokes_first_match_only R name ms :
  ReadMeta AuthMethodMetaKey R = Some name →
  (Forall (λ x, method x ≠ name) ms
   ∧ Verify_calls R ms = [ev_ReadMeta AuthMethodMetaKey]
   ∧ verify_invocations (Verify_calls R ms) = [])
  ∨ (∃ pre m post,
       ms = pre ++ m :: post
       ∧ Forall (λ x, method x ≠ name) pre
       ∧ method m = name
       ∧ Verify_calls R ms = [ev_ReadMeta AuthMethodMetaKey; ev_verify m]
       ∧ verify_invocations (Verify_calls R ms) = [m]).
Proof.
  intros Hr. unfold Verify_calls. rewrite (Verify_declared _ name) by done.
  destruct (first_match name ms) as [Hms|(pre & m & post & -> & Hpre & Hm)].
  - left. by rewrite Verify_range_unknown.
  - right. exists pre, m, post.
    by rewrite Verify_range_skip, Verify_range_match.
Qed.

(** C7. For two methods of different names, each of which accepts the
    requests it signed, a request signed with either one is verified
    with internalCall = true and no error against the two loaded
    methods, in either order of the list. *)
Theorem Verify_two_methods_either_order `{!TransportLaws T} M1 M2 M R :
  method M1 ≠ method M2 →
  verifies_own_signatures M1 →
  verifies_own_signatures M2 →
  M = M1 ∨ M = M2 →
  (sign M R).1 = None →
  Verify_result (Sign_req M R) [M1; M2] = (true, None)
  ∧ Verify_result (Sign_req M R) [M2; M1] = (true, None).
Proof.
  intros Hne Hown1 Hown2 HM Hs.
  assert (ReadMeta AuthMethodMetaKey (Sign_req M R) = Some (method M)) as Hr.
  { rewrite Sign_req_success by done. apply ReadMeta_SetMeta. }
  assert ((verify M (Sign_req M R)).1 = None) as Hv.
  { destruct HM as [-> | ->]; auto. }
  unfold Verify_result. rewrite !(Verify_declared _ (method M)) by done.
  destruct HM as [-> | ->]; split.
  - rewrite Verify_range_match by done. simpl. by rewrite Hv.
  - rewrite Verify_range_next by congruence.
    rewrite Verify_range_match by done. simpl. by rewrite Hv.
  - rewrite Verify_range_next by congruence.
    rewrite Verify_range_match by done. simpl. by rewrite Hv.
  - rewrite Verify_range_match by done. simpl. by rewrite Hv.
Qed.

End pkgfn.
End svcauth_spec.

(** * The properties of svcauth on the stand-ins *)
Module svcauth_examples.
Import svcauth svcauth_spec standins.

#[export] Instance req_TransportLaws : TransportLaws req.
Proof. split. intros key value r. simpl. apply lookup_insert_eq. Qed.

Lemma noop_verifies_own : verifies_own_signatures noop.
Proof. by intros r _. Qed.

Lemma tagged_verifies_own name secret :
  verifies_own_signatures (tagged name secret).
Proof.
  intros r Hs. rewrite Sign_req_success by done.
  simpl in *. destruct (decide (secret = "")) as [|Hsecret]; [done|].
  simpl. rewrite decide_True; [done|].
  unfold tag_of. simpl.
  destruct (decide (AuthMethodMetaKey = "Svc-Auth")) as [Heq|Hne];
    [discriminate Heq|].
  rewrite lookup_insert_ne by done. apply lookup_insert_eq.
Qed.

(** The scenario of the design: signed with ["hmac-v1"] and the secret,
    the request carries the method name and verifies; with one byte of the
    body changed it is rejected as a verification failure. *)
Example scenario_hmac_v1 :
  ReadMeta AuthMethodMetaKey signed_42 = Some "hmac-v1"
  ∧ Verify_result signed_42 [hmac_v1] = (true, None)
  ∧ Verify_result tampered_43 [hmac_v1]
    = (false, Some (VerificationFailure (errorString "bad signature"))).
Proof. by vm_compute. Qed.

(** Names are compared as they are: another case, a prefix and an
    extension of the declared name all count as other names, and no verify
    operation runs. *)
Example exact_names_only :
  let ms := [tagged "HMAC-V1" "s3cr3t"; tagged "hmac" "s3cr3t";
             tagged "hmac-v1 " "s3cr3t"; tagged "" "s3cr3t"] in
  Verify_result signed_42 ms = (false, Some (UnknownMethod "hmac-v1"))
  ∧ verify_invocations (Verify_calls signed_42 ms) = [].
Proof. by vm_compute. Qed.

Lemma Sign_then_Verify_witness :
  (sign hmac_v1 orders_42).1 = None
  ∧ verifies_own_signatures hmac_v1
  ∧ Sign_err hmac_v1 orders_42 = None
  ∧ Verify_result (Sign_req hmac_v1 orders_42) [hmac_v1] = (true, None).
Proof.
  split; [reflexivity|]. split; [apply tagged_verifies_own|].
  apply (Sign_then_Verify hmac_v1 orders_42);
    [reflexivity | apply tagged_verifies_own].
Defined.

Lemma Verify_without_marker_witness :
  ReadMeta AuthMethodMetaKey orders_42 = None
  ∧ Verify_result orders_42 [hmac_v1; noop] = (false, None)
  ∧ Verify_result orders_42 [] = (false, None)
  ∧ verify_invocations (Verify_calls orders_42 [hmac_v1; noop]) = [].
Proof.
  split; [reflexivity|].
  apply (Verify_without_marker orders_42 [hmac_v1; noop]). reflexivity.
Defined.

Lemma Verify_reports_verification_failure_witness :
  Verify_result tampered_43 ([hmac_v2] ++ hmac_v1 :: [noop])
  = (false, Some (VerificationFailure (errorString "bad signature")))
  ∧ Unwrap (VerificationFailure (errorString "bad signature"))
    = Some (errorString "bad signature")
  ∧ Verify_result tampered_43 ([hmac_v2] ++ hmac_v1 :: [noop]) ≠ (false, None).
Proof.
  apply (Verify_reports_verification_failure tampered_43 "hmac-v1"
           [hmac_v2] hmac_v1 [noop] (errorString "bad signature")).
  - vm_compute. reflexivity.
  - constructor; [|constructor]. simpl. discriminate.
  - reflexivity.
  - vm_compute. reflexivity.
Defined.

Lemma Verify_reports_unknown_method_witness :
  Verify_result signed_42 [hmac_v2; noop]
  = (false, Some (UnknownMethod "hmac-v1"))
  ∧ Verify_result (Sign_req hmac_v1 orders_42) [hmac_v2]
    = (false, Some (UnknownMethod (method hmac_v1))).
Proof.
  destruct (Verify_reports_unknown_method (T := req)) as (Hgen & Hsigned & _).
  split.
  - apply (Hgen signed_42 "hmac-v1" [hmac_v2; noop]).
    + vm_compute. reflexivity.
    + repeat constructor; simpl; discriminate.
  - apply (Hsigned hmac_v1 hmac_v2 orders_42); [reflexivity|].
    simpl. discriminate.
Defined.

Lemma Sign_failure_writes_no_marker_witness :
  let M := tagged "hmac-v1" "" in
  (sign M orders_42).1 = Some (errorString "missing secret")
  ∧ Sign_err M orders_42
    = Some (SigningFailure (errorString "missing secret"))
  ∧ Sign_calls M orders_42 = [ev_sign M]
  ∧ ReadMeta AuthMethodMetaKey (Sign_req M orders_42) = None.
Proof.
  intros M. split; [reflexivity|].
  destruct (Sign_failure_writes_no_marker M orders_42
              (errorString "missing secret") eq_refl)
    as (Herr & _ & _ & Hcalls & _ & Hkey).
  split_and!; [exact Herr|exact Hcalls|].
  rewrite Hkey; reflexivity.
Defined.

Lemma Verify_invokes_first_match_only_witness :
  let ms := [hmac_v2; hmac_v1; tagged "hmac-v1" "0ld s3cr3t"] in
  ReadMeta AuthMethodMetaKey tampered_43 = Some "hmac-v1"
  ∧ ((Forall (λ x, method x ≠ "hmac-v1") ms
      ∧ Verify_calls tampered_43 ms = [ev_ReadMeta AuthMethodMetaKey]
      ∧ verify_invocations (Verify_calls tampered_43 ms) = [])
     ∨ (∃ pre m post,
          ms = pre ++ m :: post
          ∧ Forall (λ x, method x ≠ "hmac-v1") pre
          ∧ method m = "hmac-v1"
          ∧ Verify_calls tampered_43 ms
            = [ev_ReadMeta AuthMethodMetaKey; ev_verify m]
          ∧ verify_invocations (Verify_calls tampered_43 ms) = [m])).
Proof.
  intros ms. split; [vm_compute; reflexivity|].
  apply (Verify_invokes_first_match_only tampered_43 "hmac-v1" ms).
  vm_compute. reflexivity.
Defined.

(** On that input the one verify operation invoked is the one of the
    second method in the list, which fails; the third, of the same name
    and another secret, is not tried. *)
Example no_fallback_after_failure :
  let ms := [hmac_v2; hmac_v1; tagged "hmac-v1" "0ld s3cr3t"] in
  Verify_calls tampered_43 ms
  = [ev_ReadMeta AuthMethodMetaKey; ev_verify hmac_v1]
  ∧ Verify_result tampered_43 ms
    = (false, Some (VerificationFailure (errorString "bad signature"))).
Proof. by vm_compute. Qed.

Lemma Verify_two_methods_either_order_witness :
  method hmac_v1 ≠ method hmac_v2
  ∧ verifies_own_signatures hmac_v1
  ∧ verifies_own_signatures hmac_v2
  ∧ (sign hmac_v2 orders_42).1 = None
  ∧ Verify_result (Sign_req hmac_v2 orders_42) [hmac_v1; hmac_v2] = (true, None)
  ∧ Verify_result (Sign_req hmac_v2 orders_42) [hmac_v2; hmac_v1] = (true, None).
Proof.
  split; [simpl; discriminate|].
  split; [apply tagged_verifies_own|].
  split; [apply tagged_verifies_own|].
  split; [reflexivity|].
  apply (Verify_two_methods_either_order hmac_v1 hmac_v2 hmac_v2 orders_42).
  - simpl. discriminate.
  - apply tagged_verifies_own.
  - apply tagged_verifies_own.
  - right. reflexivity.
  - reflexivity.
Defined.

End svcauth_examples.

(** * Properties of package experiments *)
Module experiments_spec.
Import experiments.

(** *** The names *)

Lemma Valid_iff x :
  Valid x = true ↔
  x ∈ [LocalSecretsOverride; Metrics; V2; BetaRuntime; ExternalCalls].
Proof.
  unfold Valid. rewrite !elem_of_cons, elem_of_nil.
  repeat case_decide; intuition congruence.
Qed.

Lemma unknown_iff key : unknown key = true ↔ key ≠ "" ∧ Valid key = false.
Proof.
  unfold unknown. rewrite andb_true_iff, bool_decide_eq_true, negb_true_iff.
  done.
Qed.

Lemma unknown_false_iff key :
  unknown key = false ↔ key = "" ∨ Valid key = true.
Proof.
  unfold unknown. destruct (decide (key = "")) as [->|Hne].
  - split; [by left|done].
  - rewrite bool_decide_eq_true_2 by done. simpl.
    destruct (Valid key); simpl; intuition congruence.
Qed.

(** *** What [add] does *)

Lemma add_empty_key keys s : add ("" :: keys) s = add keys s.
Proof. done. Qed.

Lemma add_unknown_key key keys s :
  unknown key = true →
  add (key :: keys) s = (Some (mkUnknownExperimentError key), s).
Proof.
  intros [Hne Hv]%unknown_iff. simpl.
  rewrite decide_False by done. by rewrite Hv.
Qed.

Lemma add_valid_key key keys s :
  key ≠ "" → Valid key = true →
  add (key :: keys) s = add keys (<[key := true]> s).
Proof. intros Hne Hv. simpl. rewrite decide_False by done. by rewrite Hv. Qed.

(** [add] on two lists in a row is [add] on the two lists joined. *)
Lemma add_app keys1 keys2 s :
  add (keys1 ++ keys2) s =
    match add keys1 s with
    | (Some err, s') => (Some err, s')
    | (None, s') => add keys2 s'
    end.
Proof.
  revert s. induction keys1 as [|key keys1 IH]; intros s; simpl.
  - by destruct (add keys2 s) as [[err|] s'].
  - destruct (decide (key = "")); [apply IH|].
    destruct (Valid key); simpl; [apply IH|done].
Qed.

(** Past names that are empty or known, [add] goes on with those names
    enabled. *)
Lemma add_known_prefix before keys s :
  Forall (λ key, unknown key = false) before →
  add (before ++ keys) s = add keys (enable before s).
Proof.
  intros Hb. revert s.
  induction Hb as [|key before Hkey _ IH]; intros s; [done|].
  apply unknown_false_iff in Hkey as [->|Hv].
  - apply IH.
  - change ((key :: before) ++ keys) with (key :: (before ++ keys)).
    destruct (decide (key = "")) as [->|Hne]; [apply IH|].
    rewrite add_valid_key by done. rewrite IH. simpl.
    by rewrite decide_False by done.
Qed.

Lemma add_all_known keys s :
  Forall (λ key, unknown key = false) keys →
  add keys s = (None, enable keys s).
Proof.
  intros Hk. rewrite <-(app_nil_r keys) at 1.
  by rewrite add_known_prefix.
Qed.

(** [add] stops at the first name that is neither empty nor known. *)
Lemma add_first_unknown before key after s :
  Forall (λ key, unknown key = false) before →
  unknown key = true →
  add (before ++ key :: after) s =
    (Some (mkUnknownExperimentError key), enable before s).
Proof.
  intros Hb Hk. rewrite add_known_prefix by done.
  by apply add_unknown_key.
Qed.

(** A list of names either holds no unknown name or splits at the first. *)
Lemma first_unknown keys :
  Forall (λ key, unknown key = false) keys
  ∨ ∃ before key after, keys = before ++ key :: after
      ∧ Forall (λ key, unknown key = false) before ∧ unknown key = true.
Proof.
  induction keys as [|x keys IH]; [by left|].
  destruct (unknown x) eqn:Hx.
  - right. by exists [], x, keys.
  - destruct IH as [IH|(before & key & after & -> & Hb & Hk)].
    + left. by constructor.
    + right. exists (x :: before), key, after. split_and!; [done| |done].
      by constructor.
Qed.

(** Empty names change nothing. *)
Lemma add_filter_nonempty keys s :
  add keys s = add (filter (λ key, key ≠ "") keys) s.
Proof.
  revert s. induction keys as [|key keys IH]; intros s; [done|].
  destruct (decide (key = "")) as [->|Hne].
  - rewrite filter_cons_False by (intros Hn; by apply Hn).
    rewrite add_empty_key. apply IH.
  - rewrite filter_cons_True by done. simpl.
    rewrite !decide_False by done. destruct (Valid key); simpl; [apply IH|done].
Qed.

(** The names enabled by [enable]. *)
Lemma lookup_enable keys s x :
  enable keys s !! x =
    if decide (x ≠ "" ∧ x ∈ keys) then Some true else s !! x.
Proof.
  revert s. induction keys as [|key keys IH]; intros s; simpl.
  - rewrite decide_False; [done|]. intros [_ Hin]. by apply elem_of_nil in Hin.
  - rewrite IH. destruct (decide (x ≠ "" ∧ x ∈ keys)) as [Hin|Hnin].
    + rewrite decide_True; [done|]. destruct Hin. split; [done|by right].
    + destruct (decide (key = "")) as [->|Hne].
      * rewrite decide_False; [done|].
        intros [Hx [Heq|Hin]%elem_of_cons]; [done|]. by apply Hnin.
      * destruct (decide (x = key)) as [->|Hxk].
        -- rewrite lookup_insert_eq. rewrite decide_True; [done|].
           split; [done|by left].
        -- rewrite lookup_insert_ne by done. rewrite decide_False; [done|].
           intros [Hx [Heq|Hin]%elem_of_cons]; [done|]. by apply Hnin.
Qed.

(** *** What [NewSet] does *)

Section NewSet.
Variable Getenv : string → string.

Lemma NewSet_range_add environ s :
  NewSet_range environ s = add (concat (environ_keys <$> environ)) s.
Proof.
  revert s. induction environ as [|env environ IH]; intros s; [done|].
  simpl. rewrite add_app. unfold environ_keys at 1.
  destruct (strings.HasPrefix env prefix).
  - by destruct (add _ s) as [[err|] s'].
  - apply IH.
Qed.

(** [NewSet] is one [add] of all the names it is given to the empty map. *)
Lemma NewSet_add fromAppFile environ :
  NewSet Getenv fromAppFile environ =
    match add (input_keys Getenv fromAppFile environ) ∅ with
    | (Some err, _) => (None, Some err)
    | (None, set) => (Some (mkSet set), None)
    end.
Proof.
  unfold NewSet, input_keys. rewrite add_app.
  destruct (add fromAppFile ∅) as [[err|] s1]; [done|].
  rewrite add_app.
  destruct (decide (Getenv envName ≠ "")); simpl.
  - destruct (add (parseEnvVal (Getenv envName)) s1) as [[err|] s2]; [done|].
    by rewrite NewSet_range_add.
  - by rewrite NewSet_range_add.
Qed.

Lemma NewSet_all_known fromAppFile environ :
  Forall (λ key, unknown key = false) (input_keys Getenv fromAppFile environ) →
  NewSet Getenv fromAppFile environ =
    (Some (mkSet (enable (input_keys Getenv fromAppFile environ) ∅)), None).
Proof. intros Hk. rewrite NewSet_add. by rewrite add_all_known. Qed.

Lemma NewSet_first_unknown fromAppFile environ before key after :
  input_keys Getenv fromAppFile environ = before ++ key :: after →
  Forall (λ key, unknown key = false) before →
  unknown key = true →
  NewSet Getenv fromAppFile environ =
    (None, Some (mkUnknownExperimentError key)).
Proof.
  intros Hin Hb Hk. rewrite NewSet_add, Hin.
  by rewrite add_first_unknown.
Qed.

End NewSet.

(** *** What [List] returns *)

Lemma List_Permutation s : List (Some s) ≡ₚ maps_Keys (experiments s).
Proof. apply merge_sort_Permutation. Qed.

Lemma elem_of_List s x : x ∈ List (Some s) ↔ is_Some (experiments s !! x).
Proof.
  rewrite List_Permutation. unfold maps_Keys.
  rewrite list_elem_of_fmap. split.
  - intros ([k v] & -> & Hkv). apply elem_of_map_to_list in Hkv. by exists v.
  - intros [v Hv]. exists (x, v). split; [done|].
    by apply elem_of_map_to_list.
Qed.

Lemma NoDup_List s : NoDup (List (Some s)).
Proof. rewrite List_Permutation. apply NoDup_fst_map_to_list. Qed.

Lemma List_sorted s : StronglySorted String.le (List (Some s)).
Proof. apply (StronglySorted_merge_sort _). Qed.

(** *** The two outcomes of [NewSet] *)

Lemma NewSet_cases Getenv fromAppFile environ :
  let keys := input_keys Getenv fromAppFile environ in
  (Forall (λ key, unknown key = false) keys
   ∧ NewSet Getenv fromAppFile environ = (Some (mkSet (enable keys ∅)), None))
  ∨ (∃ before key after,
       keys = before ++ key :: after
       ∧ Forall (λ key, unknown key = false) before
       ∧ unknown key = true
       ∧ NewSet Getenv fromAppFile environ
         = (None, Some (mkUnknownExperimentError key))).
Proof.
  intros keys.
  destruct (first_unknown keys) as [Hk|(before & key & after & Hin & Hb & Hk)].
  - left. split; [done|]. by apply NewSet_all_known.
  - right. exists before, key, after. split_and!; [done..|].
    by apply (NewSet_first_unknown _ _ _ before key after).
Qed.

(** *** The properties *)

(** C8, as amended.  With ["metrics"] declared by the app and
    ENCORE_EXPERIMENT set to v2,metrics, in the environment of the caller or
    in the one of the process, [NewSet] succeeds and [List] returns
    ["metrics"; "v2"].  For any inputs that hold a flag name which is not
    empty and not a known experiment, [NewSet] returns an
    [UnknownExperimentError] that names the first such flag in the order
    the inputs are read: app file, environment of the process, entries of
    [environ]. *)
Theorem NewSet_scenario_and_first_unknown_flag :
  ((∀ Getenv, Getenv envName = "" →
      NewSet Getenv ["metrics"] ["ENCORE_EXPERIMENT=v2,metrics"]
      = (Some (mkSet {[ "metrics" := true; "v2" := true ]}), None))
   ∧ (∀ Getenv, Getenv envName = "v2,metrics" →
        NewSet Getenv ["metrics"] []
        = (Some (mkSet {[ "metrics" := true; "v2" := true ]}), None))
   ∧ List (Some (mkSet {[ "metrics" := true; "v2" := true ]}))
     = ["metrics"; "v2"])
  ∧ (∀ Getenv fromAppFile environ x,
       x ∈ input_keys Getenv fromAppFile environ →
       x ≠ "" →
       Valid x = false →
       ∃ before key after,
         input_keys Getenv fromAppFile environ = before ++ key :: after
         ∧ Forall (λ y, y = "" ∨ Valid y = true) before
         ∧ key ≠ "" ∧ Valid key = false
         ∧ NewSet Getenv fromAppFile environ
           = (None, Some (mkUnknownExperimentError key))
         ∧ Error (mkUnknownExperimentError key)
           = "unknown experiment: " +:+ key).
Proof.
  split.
  { split_and!; [| |by vm_compute];
      intros Getenv HG; unfold NewSet; rewrite HG; by vm_compute. }
  intros Getenv fromAppFile environ x Hx Hne Hv.
  destruct (NewSet_cases Getenv fromAppFile environ)
    as [[Hk _]|(before & key & after & Hin & Hb & Hk & HN)].
  - rewrite Forall_forall in Hk. specialize (Hk x Hx).
    apply unknown_false_iff in Hk as [?|Hk]; [done|congruence].
  - exists before, key, after. apply unknown_iff in Hk as [??].
    split_and!; [done| |done..].
    eapply Forall_impl; [exact Hb|]. intros y. apply unknown_false_iff.
Qed.

(** C9. No experiment is enabled in a missing set, and the list of a
    missing set is empty: a nil set behaves as the set with no experiment
    in it. *)
Theorem nil_Set_enables_nothing :
  (∀ x, Enabled x None = false)
  ∧ List None = []
  ∧ StringList None = []
  ∧ (∀ x, Enabled x None = Enabled x (Some (mkSet ∅)))
  ∧ List None = List (Some (mkSet ∅)).
Proof. split_and!; [done..| |done]. intros x. simpl. by rewrite lookup_empty. Qed.

(** C10. Empty flag names are skipped: [add] does the same with and
    without them, so does [NewSet] on the names it reads from the app file
    and from the comma-separated values of the environment; the empty name
    is never in the resulting set, an error of [NewSet] never names it,
    and when every name that is not empty is a known experiment [NewSet]
    returns no error. *)
Theorem empty_flag_names_are_skipped :
  (∀ keys s, add keys s = add (filter (λ key, key ≠ "") keys) s)
  ∧ (∀ Getenv fromAppFile environ,
       NewSet Getenv fromAppFile environ =
         match add (filter (λ key, key ≠ "")
                      (input_keys Getenv fromAppFile environ)) ∅ with
         | (Some err, _) => (None, Some err)
         | (None, set) => (Some (mkSet set), None)
         end)
  ∧ (∀ Getenv fromAppFile environ,
       NewSet Getenv fromAppFile environ
       = NewSet Getenv (filter (λ key, key ≠ "") fromAppFile) environ)
  ∧ (∀ Getenv fromAppFile environ set,
       (NewSet Getenv fromAppFile environ).1 = Some set →
       experiments set !! "" = None ∧ "" ∉ List (Some set))
  ∧ (∀ Getenv fromAppFile environ err,
       (NewSet Getenv fromAppFile environ).2 = Some err →
       error_Name err ≠ "")
  ∧ (∀ Getenv fromAppFile environ,
       Forall (λ key, key = "" ∨ Valid key = true)
         (input_keys Getenv fromAppFile environ) →
       (NewSet Getenv fromAppFile environ).2 = None)
  ∧ parseEnvVal "'v2,,metrics,'" = ["v2"; ""; "metrics"; ""]
  ∧ NewSet (env_with "'v2,,metrics,'") [""; "metrics"; ""]
      ["ENCORE_EXPERIMENT=,"; "ENCORE_EXPERIMENT='"]
    = (Some (mkSet {[ "metrics" := true; "v2" := true ]}), None).
Proof.
  split_and!.
  - apply add_filter_nonempty.
  - intros. by rewrite NewSet_add, add_filter_nonempty.
  - intros. unfold NewSet. by rewrite (add_filter_nonempty fromAppFile).
  - intros Getenv fromAppFile environ set Hset.
    destruct (NewSet_cases Getenv fromAppFile environ)
      as [[_ HN]|(? & ? & ? & _ & _ & _ & HN)];
      rewrite HN in Hset; simpl in Hset; [|done].
    injection Hset as <-.
    assert (enable (input_keys Getenv fromAppFile environ) ∅ !! "" = None)
      as Hnone.
    { rewrite lookup_enable, decide_False; [done|]. by intros [? _]. }
    split; [done|].
    intros Hin%elem_of_List. simpl in Hin. rewrite Hnone in Hin.
    by destruct Hin.
  - intros Getenv fromAppFile environ err Herr.
    destruct (NewSet_cases Getenv fromAppFile environ)
      as [[_ HN]|(? & key & ? & _ & _ & Hk & HN)];
      rewrite HN in Herr; simpl in Herr; [done|].
    injection Herr as <-. simpl.
    by apply unknown_iff in Hk as [? _].
  - intros Getenv fromAppFile environ Hk.
    rewrite NewSet_all_known; [done|].
    eapply Forall_impl; [exact Hk|]. intros y. apply unknown_false_iff.
  - by vm_compute.
  - by vm_compute.
Qed.

End experiments_spec.

(** * The properties of experiments on concrete inputs *)
Module experiments_examples.
Import experiments experiments_spec.

(** The listed set, whatever the order in which the flags come in. *)
Example List_is_sorted :
  List (NewSet (env_with "v2,metrics,beta-runtime") ["metrics"; "external-calls"]
          ["HOME=/root"; "ENCORE_EXPERIMENT=local-secrets-override,v2"]).1
  = ["beta-runtime"; "external-calls"; "local-secrets-override"; "metrics"; "v2"].
Proof. by vm_compute. Qed.

(** As C8 was stated, every flag name that is not a known experiment
    would make [NewSet] return an error naming that very flag.  The empty
    name is not a known experiment and causes no error; of two unknown
    names only the first is named. *)
Lemma NewSet_names_each_unrecognized_flag_counterexample :
  (Valid "" = false
   ∧ "" ∈ input_keys (env_with "v2,") ["metrics"] []
   ∧ NewSet (env_with "v2,") ["metrics"] []
     = (Some (mkSet {[ "metrics" := true; "v2" := true ]}), None))
  ∧ (Valid "bar" = false
     ∧ "bar" ∈ input_keys (env_with "foo,bar") [] []
     ∧ NewSet (env_with "foo,bar") [] []
       = (None, Some (mkUnknownExperimentError "foo"))
     ∧ NewSet (env_with "foo,bar") [] []
       ≠ (None, Some (mkUnknownExperimentError "bar"))).
Proof.
  split_and!; try (by vm_compute).
  - vm_compute. repeat constructor.
  - vm_compute. repeat constructor.
Qed.

Lemma NewSet_scenario_and_first_unknown_flag_witness :
  let environ := ["PATH=/bin"; "ENCORE_EXPERIMENT='v2,turbo,nitro'"] in
  "nitro" ∈ input_keys (env_with "") ["metrics"; ""] environ
  ∧ Valid "nitro" = false
  ∧ ∃ before key after,
      input_keys (env_with "") ["metrics"; ""] environ = before ++ key :: after
      ∧ Forall (λ y, y = "" ∨ Valid y = true) before
      ∧ key ≠ "" ∧ Valid key = false
      ∧ NewSet (env_with "") ["metrics"; ""] environ
        = (None, Some (mkUnknownExperimentError key))
      ∧ Error (mkUnknownExperimentError key) = "unknown experiment: " +:+ key.
Proof.
  intros environ.
  assert ("nitro" ∈ input_keys (env_with "") ["metrics"; ""] environ) as Hin.
  { vm_compute. repeat constructor. }
  split; [exact Hin|]. split; [reflexivity|].
  apply (proj2 NewSet_scenario_and_first_unknown_flag
           (env_with "") ["metrics"; ""] environ "nitro");
    [exact Hin|discriminate|reflexivity].
Defined.

(** On that input the flag named is the first unknown one. *)
Example first_unknown_flag_is_named :
  NewSet (env_with "") ["metrics"; ""]
    ["PATH=/bin"; "ENCORE_EXPERIMENT='v2,turbo,nitro'"]
  = (None, Some (mkUnknownExperimentError "turbo")).
Proof. by vm_compute. Qed.

Lemma empty_flag_names_are_skipped_witness :
  let Getenv := env_with "v2,,metrics," in
  Forall (λ key, key = "" ∨ Valid key = true)
    (input_keys Getenv [""; "metrics"] ["ENCORE_EXPERIMENT="])
  ∧ (NewSet Getenv [""; "metrics"] ["ENCORE_EXPERIMENT="]).2 = None.
Proof.
  intros Getenv.
  assert (Forall (λ key, key = "" ∨ Valid key = true)
            (input_keys Getenv [""; "metrics"] ["ENCORE_EXPERIMENT="])) as Hk.
  { vm_compute. repeat constructor; (by left) || (by right). }
  split; [exact Hk|].
  destruct empty_flag_names_are_skipped as (_ & _ & _ & _ & _ & Hok & _).
  exact (Hok Getenv [""; "metrics"] ["ENCORE_EXPERIMENT="] Hk).
Defined.

End experiments_examples.

(** * Further properties of package svcauth *)
Module svcauth_more.
Import svcauth svcauth_spec.

Section pkgfn.
Context {T : Type} `{Transport T}.
Implicit Types (m M : ServiceAuth T) (req R : T) (ms : list (ServiceAuth T)).

(** The whole outcome of [Verify] when the scan finds a method of the
    declared name: result, request and calls. *)
Lemma Verify_first_match R name pre m post :
  ReadMeta AuthMethodMetaKey R = Some name →
  Forall (λ x, method x ≠ name) pre →
  method m = name →
  Verify (pre ++ m :: post) (init R) =
    (match (verify m R).1 with
     | Some cause => (false, Some (VerificationFailure cause))
     | None => (true, None)
     end,
     World (verify m R).2 [ev_ReadMeta AuthMethodMetaKey; ev_verify m]).
Proof.
  intros Hr Hpre Hm. rewrite (Verify_declared _ name) by done.
  by rewrite Verify_range_skip, Verify_range_match.
Qed.

(** The whole outcome when no loaded method has the declared name. *)
Lemma Verify_no_match R name ms :
  ReadMeta AuthMethodMetaKey R = Some name →
  Forall (λ x, method x ≠ name) ms →
  Verify ms (init R) =
    ((false, Some (UnknownMethod name)),
     World R [ev_ReadMeta AuthMethodMetaKey]).
Proof.
  intros Hr Hms. rewrite (Verify_declared _ name) by done.
  by rewrite Verify_range_unknown.
Qed.

(** X1. When the sign operation of [M] succeeds, [Sign] returns nil, it
    has called the sign operation first and [SetMeta] second and nothing
    else, and the request then declares the name of [M]. *)
Theorem Sign_declares_method `{!TransportLaws T} M R :
  (sign M R).1 = None →
  Sign_err M R = None
  ∧ Sign_calls M R = [ev_sign M; ev_SetMeta AuthMethodMetaKey (method M)]
  ∧ ReadMeta AuthMethodMetaKey (Sign_req M R) = Some (method M).
Proof.
  intros Hs. split_and!.
  - destruct (sign M R) as [err R'] eqn:HsR; simpl in Hs; subst err.
    unfold Sign_err. by rewrite (Sign_success _ _ _ HsR).
  - destruct (sign M R) as [err R'] eqn:HsR; simpl in Hs; subst err.
    unfold Sign_calls. by rewrite (Sign_success _ _ _ HsR).
  - rewrite Sign_req_success by done. apply ReadMeta_SetMeta.
Qed.

(** What an internalCall = true of [Verify] takes. *)
Lemma Verify_true_inv R ms :
  (Verify_result R ms).1 = true →
  (Verify_result R ms).2 = None
  ∧ ∃ name pre m post,
      ReadMeta AuthMethodMetaKey R = Some name
      ∧ ms = pre ++ m :: post
      ∧ Forall (λ x, method x ≠ name) pre
      ∧ method m = name
      ∧ (verify m R).1 = None.
Proof.
  unfold Verify_result.
  destruct (ReadMeta AuthMethodMetaKey R) as [name|] eqn:Hr.
  - destruct (first_match name ms) as [Hms|(pre & m & post & -> & Hpre & Hm)].
    + by rewrite (Verify_no_match _ name).
    + rewrite (Verify_first_match _ name) by done. simpl.
      destruct (verify m R).1 as [cause|] eqn:Hv; [done|].
      intros _. split; [done|]. by exists name, pre, m, post.
  - by rewrite Verify_not_declared.
Qed.

(** X2. [Verify] reports an internal call exactly when the request
    declares a name, some loaded method has that name and the verify
    operation of the first such method accepts the request. *)
Theorem Verify_internal_call_iff R ms :
  (Verify_result R ms).1 = true ↔
    ∃ name pre m post,
      ReadMeta AuthMethodMetaKey R = Some name
      ∧ ms = pre ++ m :: post
      ∧ Forall (λ x, method x ≠ name) pre
      ∧ method m = name
      ∧ (verify m R).1 = None.
Proof.
  split; [apply Verify_true_inv|].
  intros (name & pre & m & post & Hr & -> & Hpre & Hm & Hv).
  rewrite (Verify_result_first_match _ name) by done. by rewrite Hv.
Qed.

(** X3. The two results of [Verify] agree: an error always comes with
    internalCall = false, and internalCall = true with a nil error. *)
Theorem Verify_error_is_not_internal R ms :
  ((Verify_result R ms).2 ≠ None → (Verify_result R ms).1 = false)
  ∧ ((Verify_result R ms).1 = true → (Verify_result R ms).2 = None).
Proof.
  split; [|apply Verify_true_inv].
  intros He. destruct (Verify_result R ms).1 eqn:Hb; [|done].
  by apply Verify_true_inv in Hb as [? _].
Qed.

(** X4. With loaded methods whose names are all different, the result of
    [Verify] does not depend on the order of the list. *)
Theorem Verify_order_independent R ms ms' :
  NoDup (method <$> ms) →
  ms ≡ₚ ms' →
  Verify_result R ms = Verify_result R ms'.
Proof.
  intros Hnd Hp. unfold Verify_result.
  destruct (ReadMeta AuthMethodMetaKey R) as [name|] eqn:Hr;
    [|by rewrite !Verify_not_declared].
  destruct (first_match name ms) as [Hms|(pre & m & post & Hsplit & Hpre & Hm)].
  - assert (Forall (λ x, method x ≠ name) ms') as Hms' by by rewrite <-Hp.
    by rewrite !(Verify_no_match _ name).
  - assert (m ∈ ms') as Hin'.
    { rewrite <-Hp, Hsplit. apply elem_of_app. right. left. }
    assert (NoDup (method <$> ms')) as Hnd' by by rewrite <-Hp.
    destruct (first_match_NoDup name m ms' Hnd' Hin' Hm)
      as (pre' & post' & -> & Hpre').
    rewrite Hsplit. by rewrite !(Verify_first_match _ name).
Qed.

(** X5. Once the scan has reached a method of the declared name, the
    methods after it play no part: whatever follows it in the list,
    [Verify] returns the same, leaves the same request and makes the same
    calls. *)
Theorem Verify_ignores_later_methods R pre m post post' :
  ReadMeta AuthMethodMetaKey R = Some (method m) →
  Verify (pre ++ m :: post) (init R) = Verify (pre ++ m :: post') (init R).
Proof.
  intros Hr.
  destruct (first_match (method m) pre)
    as [Hpre|(p1 & x & p2 & -> & Hp1 & Hx)].
  - by rewrite !(Verify_first_match _ (method m)).
  - rewrite <-!app_assoc. simpl.
    by rewrite !(Verify_first_match _ (method m) p1 x).
Qed.

(** X6. [Verify] never signs and never writes metadata: its calls are one
    [ReadMeta] and at most one verify operation of a loaded method, and it
    leaves the request as it found it or, when a verify operation ran, as
    that operation left it. *)
Theorem Verify_only_reads R ms :
  (Verify_calls R ms = [ev_ReadMeta AuthMethodMetaKey]
   ∧ request (Verify ms (init R)).2 = R)
  ∨ (∃ m, m ∈ ms
       ∧ Verify_calls R ms = [ev_ReadMeta AuthMethodMetaKey; ev_verify m]
       ∧ request (Verify ms (init R)).2 = (verify m R).2).
Proof.
  unfold Verify_calls.
  destruct (ReadMeta AuthMethodMetaKey R) as [name|] eqn:Hr.
  - destruct (first_match name ms) as [Hms|(pre & m & post & -> & Hpre & Hm)].
    + left. by rewrite (Verify_no_match _ name).
    + right. exists m. rewrite (Verify_first_match _ name) by done.
      split; [|done]. apply elem_of_app. right. left.
  - left. by rewrite Verify_not_declared.
Qed.

(** X7. A request signed with [M], whose verify operation accepts what
    [M] signed, is verified as an internal call against every list of
    loaded methods in which [M] is the first method of its name. *)
Theorem Signed_request_verifies_among `{!TransportLaws T} M R pre post :
  (sign M R).1 = None →
  verifies_own_signatures M →
  Forall (λ x, method x ≠ method M) pre →
  Verify_result (Sign_req M R) (pre ++ M :: post) = (true, None).
Proof.
  intros Hs Hown Hpre.
  rewrite (Verify_result_first_match _ (method M)); [|
    rewrite Sign_req_success by done; apply ReadMeta_SetMeta | done..].
  by rewrite (Hown R Hs).
Qed.

(** X8. A method that comes before [M] in the list with the name of [M]
    takes its place: the request signed with [M] is judged by that
    method alone, and rejected when it rejects. *)
Theorem Verify_same_name_shadows `{!TransportLaws T} M M' R post cause :
  (sign M R).1 = None →
  method M' = method M →
  (verify M' (Sign_req M R)).1 = Some cause →
  Verify_result (Sign_req M R) (M' :: M :: post)
  = (false, Some (VerificationFailure cause))
  ∧ Verify_calls (Sign_req M R) (M' :: M :: post)
    = [ev_ReadMeta AuthMethodMetaKey; ev_verify M'].
Proof.
  intros Hs Hname Hv.
  assert (ReadMeta AuthMethodMetaKey (Sign_req M R) = Some (method M)) as Hr.
  { rewrite Sign_req_success by done. apply ReadMeta_SetMeta. }
  unfold Verify_result, Verify_calls.
  change (M' :: M :: post) with ([] ++ M' :: M :: post).
  rewrite (Verify_first_match _ (method M) [] M') by done.
  by rewrite Hv.
Qed.

End pkgfn.
End svcauth_more.

(** * Further properties of package experiments *)
Module experiments_more.
Import experiments experiments_spec.

(** *** [List] *)

Lemma StronglySorted_NoDup_lt (l : list string) :
  StronglySorted String.le l → NoDup l → StronglySorted Name_lt l.
Proof.
  induction 1 as [|x l Hl IH Hx]; intros Hnd; [constructor|].
  apply NoDup_cons in Hnd as [Hnin Hnd].
  constructor; [by apply IH|].
  rewrite Forall_forall in Hx. apply Forall_forall. intros y Hy.
  split; [by apply Hx|]. intros ->. done.
Qed.

(** X9. The list of a set holds exactly the names the map has as keys,
    each once, in strictly ascending order of bytes; it is as long as
    the map is large. *)
Theorem List_lists_the_keys s :
  (∀ x, x ∈ List (Some s) ↔ is_Some (experiments s !! x))
  ∧ NoDup (List (Some s))
  ∧ StronglySorted Name_lt (List (Some s))
  ∧ length (List (Some s)) = size (experiments s).
Proof.
  split_and!.
  - intros x. apply elem_of_List.
  - apply NoDup_List.
  - apply StronglySorted_NoDup_lt; [apply List_sorted|apply NoDup_List].
  - rewrite List_Permutation. unfold maps_Keys.
    by rewrite length_fmap, length_map_to_list.
Qed.

(** *** [add] *)

Lemma add_lookup keys s x :
  (add keys s).2 !! x = s !! x
  ∨ ((add keys s).2 !! x = Some true
     ∧ x ∈ keys ∧ x ≠ "" ∧ Valid x = true).
Proof.
  revert s. induction keys as [|key keys IH]; intros s; [by left|].
  simpl. destruct (decide (key = "")) as [->|Hne].
  - destruct (IH s) as [?|(? & ? & ? & ?)]; [by left|right].
    split_and!; [done| |done..]. by right.
  - destruct (Valid key) eqn:Hv; simpl; [|by left].
    destruct (IH (<[key := true]> s)) as [Heq|(? & ? & ? & ?)].
    + destruct (decide (x = key)) as [->|Hxk].
      * right. rewrite Heq, lookup_insert_eq. split_and!; [done| |done..].
        by left.
      * left. by rewrite Heq, lookup_insert_ne.
    + right. split_and!; [done| |done..]. by right.
Qed.

(** X10. Whether it returns an error or not, [add] removes no entry of
    the map, and an entry it changes is one of the given names, not empty
    and a known experiment, which it has set to true. *)
Theorem add_only_enables_known_names keys s x :
  (is_Some (s !! x) → is_Some ((add keys s).2 !! x))
  ∧ ((add keys s).2 !! x ≠ s !! x →
     (add keys s).2 !! x = Some true
     ∧ x ∈ keys ∧ x ≠ "" ∧ Valid x = true).
Proof.
  destruct (add_lookup keys s x) as [Heq|(Heq & ?)].
  - split; [by rewrite Heq|done].
  - split; [by rewrite Heq|done].
Qed.

(** X11. [add] stops at the first name that is neither empty nor a known
    experiment: it returns the error that names it, having enabled the
    names before it and read none of the names after it. *)
Theorem add_stops_at_first_unknown before key after s :
  Forall (λ y, y = "" ∨ Valid y = true) before →
  key ≠ "" →
  Valid key = false →
  add (before ++ key :: after) s
  = (Some (mkUnknownExperimentError key), enable before s)
  ∧ add (before ++ key :: after) s = add (before ++ [key]) s.
Proof.
  intros Hb Hne Hv.
  assert (Forall (λ y, unknown y = false) before) as Hb'.
  { eapply Forall_impl; [exact Hb|]. intros y. apply unknown_false_iff. }
  assert (unknown key = true) as Hk by by apply unknown_iff.
  by rewrite !add_first_unknown.
Qed.

(** *** [NewSet] *)

(** The names enabled in the set [NewSet] returns. *)
Lemma NewSet_lookup Getenv fromAppFile environ set x :
  (NewSet Getenv fromAppFile environ).1 = Some set →
  Forall (λ key, unknown key = false) (input_keys Getenv fromAppFile environ)
  ∧ experiments set !! x =
      if decide (x ≠ "" ∧ x ∈ input_keys Getenv fromAppFile environ)
      then Some true else None.
Proof.
  intros Hset.
  destruct (NewSet_cases Getenv fromAppFile environ)
    as [[Hk HN]|(? & ? & ? & _ & _ & _ & HN)];
    rewrite HN in Hset; simpl in Hset; [|done].
  injection Hset as <-. split; [done|]. simpl.
  rewrite lookup_enable. by case_decide.
Qed.

(** X12. [NewSet] returns a set or an error, never both and never
    neither; it returns the error exactly when one of the names it reads
    is neither empty nor a known experiment. *)
Theorem NewSet_set_or_error Getenv fromAppFile environ :
  ((NewSet Getenv fromAppFile environ).1 = None
   ↔ (NewSet Getenv fromAppFile environ).2 ≠ None)
  ∧ ((NewSet Getenv fromAppFile environ).2 ≠ None
     ↔ ∃ x, x ∈ input_keys Getenv fromAppFile environ
            ∧ x ≠ "" ∧ Valid x = false).
Proof.
  destruct (NewSet_cases Getenv fromAppFile environ)
    as [[Hk HN]|(before & key & after & Hin & _ & Hkey & HN)];
    rewrite HN; simpl.
  - split; [done|]. split; [done|].
    intros (x & Hx & Hne & Hv). rewrite Forall_forall in Hk.
    specialize (Hk x Hx). apply unknown_false_iff in Hk as [?|?]; congruence.
  - split; [done|]. split; [|done]. intros _.
    apply unknown_iff in Hkey as [??]. exists key. split; [|done].
    rewrite Hin. apply elem_of_app. right. left.
Qed.

(** X13. In a set that [NewSet] returns, the enabled experiments are the
    names read from the inputs that are not empty; they are the names
    [List] lists, and every one of them is a known experiment. *)
Theorem NewSet_enabled_iff Getenv fromAppFile environ set x :
  (NewSet Getenv fromAppFile environ).1 = Some set →
  (Enabled x (Some set) = true
   ↔ x ≠ "" ∧ x ∈ input_keys Getenv fromAppFile environ)
  ∧ (x ∈ List (Some set) ↔ Enabled x (Some set) = true)
  ∧ (Enabled x (Some set) = true → Valid x = true).
Proof.
  intros Hset.
  destruct (NewSet_lookup _ _ _ _ x Hset) as [Hk Hx].
  assert (Enabled x (Some set) = true
          ↔ x ≠ "" ∧ x ∈ input_keys Getenv fromAppFile environ) as Hiff.
  { simpl. rewrite Hx. case_decide; simpl; [done|]. split; [done|].
    intros ?. by exfalso. }
  split_and!; [done| |].
  - rewrite elem_of_List, Hiff, Hx. case_decide; [|split; [by intros [??]|done]].
    split; [done|]. by exists true.
  - intros [Hne Hin]%Hiff. rewrite Forall_forall in Hk.
    specialize (Hk x Hin). by apply unknown_false_iff in Hk as [?|?].
Qed.

(** X14. The set depends on which names are read, not on their order, on
    repeats or on where they come from: two runs of [NewSet] that read the
    same names, the empty one aside, return the same set. *)
Theorem NewSet_same_names_same_set G1 app1 environ1 G2 app2 environ2 :
  (∀ x, x ≠ "" →
     x ∈ input_keys G1 app1 environ1 ↔ x ∈ input_keys G2 app2 environ2) →
  (NewSet G1 app1 environ1).1 = (NewSet G2 app2 environ2).1.
Proof.
  intros Hsame.
  assert (∀ Ga a e Gb b f,
    (∀ x, x ≠ "" → x ∈ input_keys Ga a e → x ∈ input_keys Gb b f) →
    Forall (λ key, unknown key = false) (input_keys Gb b f) →
    Forall (λ key, unknown key = false) (input_keys Ga a e)) as Hknown.
  { intros Ga a e Gb b f Hsub Hk. rewrite Forall_forall in Hk.
    apply Forall_forall. intros y Hy.
    destruct (decide (y = "")) as [->|Hne]; [done|].
    apply Hk. by apply Hsub. }
  destruct (NewSet_cases G1 app1 environ1)
    as [[Hk1 HN1]|(b1 & k1 & a1 & Hin1 & _ & Hkey1 & HN1)];
  destruct (NewSet_cases G2 app2 environ2)
    as [[Hk2 HN2]|(b2 & k2 & a2 & Hin2 & _ & Hkey2 & HN2)];
    rewrite HN1, HN2; simpl.
  - do 2 f_equal. apply map_eq. intros x. rewrite !lookup_enable.
    destruct (decide (x = "")) as [->|Hne].
    + rewrite !decide_False; [done|by intros [??]..].
    + specialize (Hsame x Hne). repeat case_decide; first [done|tauto].
  - exfalso. apply unknown_iff in Hkey2 as [Hne Hv].
    assert (k2 ∈ input_keys G1 app1 environ1) as Hin.
    { apply Hsame; [done|]. rewrite Hin2. apply elem_of_app. right. left. }
    rewrite Forall_forall in Hk1. specialize (Hk1 k2 Hin).
    apply unknown_false_iff in Hk1 as [?|?]; congruence.
  - exfalso. apply unknown_iff in Hkey1 as [Hne Hv].
    assert (k1 ∈ input_keys G2 app2 environ2) as Hin.
    { apply Hsame; [done|]. rewrite Hin1. apply elem_of_app. right. left. }
    rewrite Forall_forall in Hk2. specialize (Hk2 k1 Hin).
    apply unknown_false_iff in Hk2 as [?|?]; congruence.
  - done.
Qed.

Lemma NewSet_range_filter environ s :
  NewSet_range (filter (λ env, strings.HasPrefix env prefix = true) environ) s
  = NewSet_range environ s.
Proof.
  revert s. induction environ as [|env environ IH]; intros s; [done|].
  destruct (strings.HasPrefix env prefix) eqn:Hp.
  - rewrite filter_cons_True by done. simpl. rewrite Hp.
    destruct (add _ s) as [[err|] s']; [done|apply IH].
  - rewrite filter_cons_False by (by rewrite Hp). simpl. rewrite Hp. apply IH.
Qed.

(** X15. Of the environment of the process [NewSet] reads the value of
    ENCORE_EXPERIMENT alone, and of [environ] the entries that start with
    ENCORE_EXPERIMENT= alone: other variables and other entries do not
    change what it returns. *)
Theorem NewSet_reads_only_its_variable Getenv Getenv' fromAppFile environ :
  Getenv envName = Getenv' envName →
  NewSet Getenv fromAppFile environ
  = NewSet Getenv' fromAppFile
      (filter (λ env, strings.HasPrefix env prefix = true) environ).
Proof.
  intros HG. unfold NewSet. rewrite HG.
  destruct (add fromAppFile ∅) as [[err|] s1]; [done|].
  destruct (if decide (Getenv' envName ≠ "") then _ else _) as [[err|] s2];
    [done|].
  by rewrite NewSet_range_filter.
Qed.

(** X16. The environment only adds experiments: when [NewSet] succeeds,
    it also succeeds on the app file alone, and every experiment enabled
    by the app file alone is enabled in the set built with the
    environment. *)
Theorem NewSet_environment_only_adds Getenv fromAppFile environ set :
  (NewSet Getenv fromAppFile environ).1 = Some set →
  ∃ set0,
    NewSet (env_with "") fromAppFile [] = (Some set0, None)
    ∧ ∀ x, Enabled x (Some set0) = true → Enabled x (Some set) = true.
Proof.
  intros Hset.
  assert (∀ x, x ∈ input_keys (env_with "") fromAppFile [] →
               x ∈ input_keys Getenv fromAppFile environ) as Hsub.
  { intros x. unfold input_keys. simpl. rewrite app_nil_r.
    intros Hx. apply elem_of_app. by left. }
  destruct (NewSet_cases (env_with "") fromAppFile [])
    as [[Hk0 HN0]|(b & k & a & Hin & _ & Hkey & HN0)].
  - eexists. split; [exact HN0|]. intros x. simpl.
    destruct (NewSet_lookup _ _ _ _ x Hset) as [_ ->].
    rewrite lookup_enable, lookup_empty.
    case_decide as Hx; [|done]. intros _.
    rewrite decide_True; [done|]. destruct Hx. split; [done|by apply Hsub].
  - exfalso. destruct (NewSet_lookup _ _ _ _ k Hset) as [Hk _].
    rewrite Forall_forall in Hk.
    assert (unknown k = false) as Hkf.
    { apply Hk, Hsub. rewrite Hin. apply elem_of_app. right. left. }
    congruence.
Qed.

(** *** [parseEnvVal] *)

Lemma append_cons a s t : String a s +:+ t = String a (s +:+ t).
Proof. done. Qed.

Lemma append_empty_l t : "" +:+ t = t.
Proof. done. Qed.

Lemma append_eq_empty s t : s +:+ t = "" → s = "" ∧ t = "".
Proof. destruct s; [by rewrite append_empty_l|by rewrite append_cons]. Qed.

Lemma Split_not_nil s sep : strings.Split s sep ≠ [].
Proof.
  destruct s as [|a s]; simpl; [done|].
  destruct (decide (a = sep)); [done|].
  by destruct (strings.Split s sep).
Qed.

(** Joining the pieces of a split with the separator gives the string
    back. *)
Lemma concat_Split s sep :
  String.concat (String sep "") (strings.Split s sep) = s.
Proof.
  induction s as [|a s IH]; [done|]. simpl.
  pose proof (Split_not_nil s sep) as Hnn.
  destruct (strings.Split s sep) as [|piece pieces]; [done|].
  destruct (decide (a = sep)) as [->|Hne].
  - change (String.concat (String sep "") ("" :: piece :: pieces))
      with (String sep (String.concat (String sep "") (piece :: pieces))).
    by rewrite IH.
  - destruct pieces as [|piece' pieces].
    + simpl in *. by rewrite IH.
    + change (String.concat (String sep "") (String a piece :: piece' :: pieces))
        with (String a (String.concat (String sep "") (piece :: piece' :: pieces))).
      by rewrite IH.
Qed.

Lemma Split_pieces_without_sep s sep :
  Forall (λ piece, strings.in_cutset piece sep = false) (strings.Split s sep).
Proof.
  induction s as [|a s IH]; simpl; [by repeat constructor|].
  pose proof (Split_not_nil s sep) as Hnn.
  destruct (decide (a = sep)) as [->|Hne]; [by constructor|].
  destruct (strings.Split s sep) as [|piece pieces]; [done|].
  apply Forall_cons in IH as [Hp Hps]. constructor; [|done].
  simpl. by rewrite decide_False.
Qed.

Lemma parseEnvVal_nonempty val :
  val ≠ "" →
  parseEnvVal val = strings.Split (strings.Trim val quotes) ","%char.
Proof.
  intros Hne. unfold parseEnvVal. rewrite decide_False by done.
  apply list_fmap_id.
Qed.

(** X17. For a value that is not empty, [parseEnvVal] returns at least one
    name, no name holds a comma, and the names joined with commas are the
    value without the quotes around it: nothing else is trimmed or
    dropped, inner spaces and quotes stay in the names. *)
Theorem parseEnvVal_join val :
  val ≠ "" →
  String.concat "," (parseEnvVal val) = strings.Trim val quotes
  ∧ Forall (λ name, strings.in_cutset name ","%char = false) (parseEnvVal val)
  ∧ parseEnvVal val ≠ [].
Proof.
  intros Hne. rewrite parseEnvVal_nonempty by done. split_and!.
  - apply concat_Split.
  - apply Split_pieces_without_sep.
  - apply Split_not_nil.
Qed.

Lemma TrimRight_only_of cutset r :
  only_of cutset r = true → strings.TrimRight r cutset = "".
Proof.
  induction r as [|a r IH]; simpl; [done|].
  intros [Ha Hr]%andb_true_iff. by rewrite IH, Ha.
Qed.

Lemma TrimRight_app cutset s r :
  only_of cutset r = true →
  strings.TrimRight (s +:+ r) cutset = strings.TrimRight s cutset.
Proof.
  intros Hr. induction s as [|a s IH].
  - rewrite append_empty_l. by apply TrimRight_only_of.
  - rewrite append_cons. simpl. by rewrite IH.
Qed.

Lemma Trim_TrimRight_app cutset l s :
  only_of cutset l = true →
  strings.TrimLeft (strings.TrimRight (l +:+ s) cutset) cutset
  = strings.TrimLeft (strings.TrimRight s cutset) cutset.
Proof.
  induction l as [|a l IH]; [done|]. simpl.
  intros [Ha Hl]%andb_true_iff.
  rewrite <-IH by done.
  destruct (strings.TrimRight (l +:+ s) cutset) as [|b t]; simpl.
  - by rewrite Ha.
  - by rewrite Ha.
Qed.

Lemma Trim_app cutset l s r :
  only_of cutset l = true → only_of cutset r = true →
  strings.Trim (l +:+ s +:+ r) cutset = strings.Trim s cutset.
Proof.
  intros Hl Hr. unfold strings.Trim.
  rewrite Trim_TrimRight_app by done. by rewrite TrimRight_app.
Qed.

(** X18. Quotes around the value, single or double, any number of them
    and not necessarily paired, do not change the names [parseEnvVal]
    reads from a value that is not empty. *)
Theorem parseEnvVal_ignores_outer_quotes l val r :
  only_of quotes l = true →
  only_of quotes r = true →
  val ≠ "" →
  parseEnvVal (l +:+ val +:+ r) = parseEnvVal val.
Proof.
  intros Hl Hr Hne.
  assert (l +:+ val +:+ r ≠ "") as Hne'.
  { intros [_ [? _]%append_eq_empty]%append_eq_empty. done. }
  rewrite !parseEnvVal_nonempty by done. by rewrite Trim_app.
Qed.

(** *** The entries of [environ] *)

Lemma HasPrefix_append p s : strings.HasPrefix (p +:+ s) p = true.
Proof.
  unfold strings.HasPrefix. induction p as [|a p IH].
  - rewrite append_empty_l. by destruct s.
  - rewrite append_cons. simpl.
    destruct (ascii_dec a a) as [_|Hn]; [apply IH|by destruct Hn].
Qed.

Lemma slice_from_append p s : strings.slice_from (String.length p) (p +:+ s) = s.
Proof. induction p as [|a p IH]; [by destruct s|]. rewrite append_cons. apply IH. Qed.

(** X19. An entry ENCORE_EXPERIMENT=val of [environ] counts as the
    variable of the process does: alone, it gives what [NewSet] gives
    when the process has ENCORE_EXPERIMENT set to val, an empty val
    included. *)
Theorem NewSet_environ_entry_as_variable Getenv fromAppFile val :
  Getenv envName = "" →
  NewSet Getenv fromAppFile [prefix +:+ val]
  = NewSet (env_with val) fromAppFile [].
Proof.
  intros HG. unfold NewSet. rewrite HG.
  destruct (add fromAppFile ∅) as [[err|] s1]; [done|].
  assert (env_with val envName = val) as ->.
  { unfold env_with. by rewrite decide_True. }
  cbv zeta. destruct (decide ("" ≠ "")) as [Hn|_]; [done|].
  rewrite !NewSet_range_add.
  change (concat (environ_keys <$> [prefix +:+ val]))
    with (environ_keys (prefix +:+ val) ++ []).
  rewrite app_nil_r. unfold environ_keys.
  rewrite HasPrefix_append, slice_from_append. simpl.
  destruct (decide (val ≠ "")) as [Hne|Heq].
  - by destruct (add (parseEnvVal val) s1) as [[err|] s2].
  - apply dec_stable in Heq as ->. done.
Qed.

End experiments_more.

(** * The further properties on concrete inputs *)
Module more_examples.
Import svcauth svcauth_spec svcauth_more svcauth_examples standins.
Import experiments experiments_spec experiments_more.

Lemma Sign_declares_method_witness :
  (sign hmac_v2 orders_42).1 = None
  ∧ Sign_err hmac_v2 orders_42 = None
  ∧ Sign_calls hmac_v2 orders_42
    = [ev_sign hmac_v2; ev_SetMeta AuthMethodMetaKey (method hmac_v2)]
  ∧ ReadMeta AuthMethodMetaKey (Sign_req hmac_v2 orders_42)
    = Some (method hmac_v2).
Proof.
  split; [reflexivity|].
  apply (Sign_declares_method hmac_v2 orders_42). reflexivity.
Defined.

Lemma Verify_order_independent_witness :
  NoDup (method <$> [hmac_v1; hmac_v2; noop])
  ∧ [hmac_v1; hmac_v2; noop] ≡ₚ [noop; hmac_v2; hmac_v1]
  ∧ Verify_result tampered_43 [hmac_v1; hmac_v2; noop]
    = Verify_result tampered_43 [noop; hmac_v2; hmac_v1].
Proof.
  assert (NoDup (method <$> [hmac_v1; hmac_v2; noop])) as Hnd.
  { simpl. repeat (apply NoDup_cons; split);
      [rewrite !elem_of_cons, elem_of_nil; intros [?|[?|?]]; discriminate ||
         contradiction
      |rewrite !elem_of_cons, elem_of_nil; intros [?|?]; discriminate ||
         contradiction
      |apply not_elem_of_nil|apply NoDup_nil_2]. }
  assert ([hmac_v1; hmac_v2; noop] ≡ₚ [noop; hmac_v2; hmac_v1]) as Hp.
  { etrans; [apply perm_skip, perm_swap|].
    etrans; [apply perm_swap|]. apply perm_skip, perm_swap. }
  split; [exact Hnd|]. split; [exact Hp|].
  exact (Verify_order_independent tampered_43 _ _ Hnd Hp).
Defined.

Lemma Verify_ignores_later_methods_witness :
  ReadMeta AuthMethodMetaKey signed_42 = Some (method hmac_v1)
  ∧ Verify ([hmac_v2] ++ hmac_v1 :: [noop; tagged "hmac-v1" "0ld s3cr3t"])
      (init signed_42)
    = Verify ([hmac_v2] ++ hmac_v1 :: []) (init signed_42).
Proof.
  split; [vm_compute; reflexivity|].
  apply (Verify_ignores_later_methods signed_42 [hmac_v2] hmac_v1).
  vm_compute. reflexivity.
Defined.

Lemma Signed_request_verifies_among_witness :
  (sign hmac_v1 orders_42).1 = None
  ∧ verifies_own_signatures hmac_v1
  ∧ Forall (λ x, method x ≠ method hmac_v1) [noop; hmac_v2]
  ∧ Verify_result (Sign_req hmac_v1 orders_42)
      ([noop; hmac_v2] ++ hmac_v1 :: [tagged "hmac-v1" "0ld s3cr3t"])
    = (true, None).
Proof.
  assert (Forall (λ x, method x ≠ method hmac_v1) [noop; hmac_v2]) as Hpre.
  { repeat constructor; simpl; discriminate. }
  split; [reflexivity|]. split; [apply tagged_verifies_own|].
  split; [exact Hpre|].
  apply (Signed_request_verifies_among hmac_v1 orders_42);
    [reflexivity|apply tagged_verifies_own|exact Hpre].
Defined.

Lemma Verify_same_name_shadows_witness :
  let old := tagged "hmac-v1" "0ld s3cr3t" in
  (sign hmac_v1 orders_42).1 = None
  ∧ method old = method hmac_v1
  ∧ (verify old (Sign_req hmac_v1 orders_42)).1
    = Some (errorString "bad signature")
  ∧ Verify_result (Sign_req hmac_v1 orders_42) [old; hmac_v1]
    = (false, Some (VerificationFailure (errorString "bad signature")))
  ∧ Verify_calls (Sign_req hmac_v1 orders_42) [old; hmac_v1]
    = [ev_ReadMeta AuthMethodMetaKey; ev_verify old].
Proof.
  intros old. split; [reflexivity|]. split; [reflexivity|].
  split; [vm_compute; reflexivity|].
  apply (Verify_same_name_shadows hmac_v1 old orders_42 []
           (errorString "bad signature"));
    [reflexivity|reflexivity|vm_compute; reflexivity].
Defined.

Lemma add_stops_at_first_unknown_witness :
  Forall (λ y, y = "" ∨ Valid y = true) ["v2"; ""]
  ∧ Valid "turbo" = false
  ∧ add (["v2"; ""] ++ "turbo" :: ["metrics"]) ∅
    = (Some (mkUnknownExperimentError "turbo"), enable ["v2"; ""] ∅)
  ∧ add (["v2"; ""] ++ "turbo" :: ["metrics"]) ∅
    = add (["v2"; ""] ++ ["turbo"]) ∅.
Proof.
  assert (Forall (λ y, y = "" ∨ Valid y = true) ["v2"; ""]) as Hb.
  { constructor; [by right|]. constructor; [by left|constructor]. }
  split; [exact Hb|]. split; [reflexivity|].
  apply (add_stops_at_first_unknown ["v2"; ""] "turbo" ["metrics"] ∅);
    [exact Hb|discriminate|reflexivity].
Defined.

Lemma NewSet_enabled_iff_witness :
  let set := mkSet {[ "metrics" := true; "v2" := true ]} in
  (NewSet (env_with "v2,") ["metrics"] []).1 = Some set
  ∧ (Enabled "v2" (Some set) = true
     ↔ "v2" ≠ "" ∧ "v2" ∈ input_keys (env_with "v2,") ["metrics"] [])
  ∧ ("v2" ∈ List (Some set) ↔ Enabled "v2" (Some set) = true)
  ∧ (Enabled "v2" (Some set) = true → Valid "v2" = true).
Proof.
  intros set.
  assert ((NewSet (env_with "v2,") ["metrics"] []).1 = Some set) as Hset.
  { vm_compute. reflexivity. }
  split; [exact Hset|].
  exact (NewSet_enabled_iff (env_with "v2,") ["metrics"] [] set "v2" Hset).
Defined.

Lemma NewSet_same_names_same_set_witness :
  (∀ x, x ≠ "" →
     x ∈ input_keys (env_with "") ["metrics"; "v2"] []
     ↔ x ∈ input_keys (env_with "v2,,metrics") []
           ["ENCORE_EXPERIMENT='v2'"])
  ∧ (NewSet (env_with "") ["metrics"; "v2"] []).1
    = (NewSet (env_with "v2,,metrics") [] ["ENCORE_EXPERIMENT='v2'"]).1.
Proof.
  assert (∀ x, x ≠ "" →
     x ∈ input_keys (env_with "") ["metrics"; "v2"] []
     ↔ x ∈ input_keys (env_with "v2,,metrics") []
           ["ENCORE_EXPERIMENT='v2'"]) as Hsame.
  { intros x Hne.
    change (input_keys (env_with "") ["metrics"; "v2"] [])
      with ["metrics"; "v2"].
    replace (input_keys (env_with "v2,,metrics") [] ["ENCORE_EXPERIMENT='v2'"])
      with ["v2"; ""; "metrics"; "v2"] by (vm_compute; reflexivity).
    rewrite !elem_of_cons, !elem_of_nil. intuition congruence. }
  split; [exact Hsame|].
  exact (NewSet_same_names_same_set _ _ _ _ _ _ Hsame).
Defined.

Lemma NewSet_reads_only_its_variable_witness :
  let Getenv := λ name : string,
    if decide (name = "HOME") then "/root" else env_with "v2" name in
  Getenv envName = env_with "v2" envName
  ∧ NewSet Getenv ["metrics"]
      ["PATH=/bin"; "ENCORE_EXPERIMENT=beta-runtime"; "ENCORE_EXPERIMENTS=x"]
    = NewSet (env_with "v2") ["metrics"]
        (filter (λ env, strings.HasPrefix env prefix = true)
           ["PATH=/bin"; "ENCORE_EXPERIMENT=beta-runtime";
            "ENCORE_EXPERIMENTS=x"]).
Proof.
  intros Getenv. split; [reflexivity|].
  apply (NewSet_reads_only_its_variable Getenv (env_with "v2")). reflexivity.
Defined.

Lemma NewSet_environment_only_adds_witness :
  let set := mkSet {[ "metrics" := true; "v2" := true ]} in
  (NewSet (env_with "v2") ["metrics"] []).1 = Some set
  ∧ ∃ set0,
      NewSet (env_with "") ["metrics"] [] = (Some set0, None)
      ∧ ∀ x, Enabled x (Some set0) = true → Enabled x (Some set) = true.
Proof.
  intros set.
  assert ((NewSet (env_with "v2") ["metrics"] []).1 = Some set) as Hset.
  { vm_compute. reflexivity. }
  split; [exact Hset|].
  exact (NewSet_environment_only_adds (env_with "v2") ["metrics"] [] set Hset).
Defined.

Lemma parseEnvVal_join_witness :
  "'v2, metrics,'" ≠ ""
  ∧ String.concat "," (parseEnvVal "'v2, metrics,'")
    = strings.Trim "'v2, metrics,'" quotes
  ∧ Forall (λ name, strings.in_cutset name ","%char = false)
      (parseEnvVal "'v2, metrics,'")
  ∧ parseEnvVal "'v2, metrics,'" ≠ [].
Proof.
  split; [discriminate|].
  apply (parseEnvVal_join "'v2, metrics,'"). discriminate.
Defined.

Lemma parseEnvVal_ignores_outer_quotes_witness :
  only_of quotes "''" = true
  ∧ only_of quotes "'" = true
  ∧ "v2,metrics" ≠ ""
  ∧ parseEnvVal ("''" +:+ "v2,metrics" +:+ "'") = parseEnvVal "v2,metrics".
Proof.
  split; [reflexivity|]. split; [reflexivity|]. split; [discriminate|].
  apply (parseEnvVal_ignores_outer_quotes "''" "v2,metrics" "'");
    [reflexivity|reflexivity|discriminate].
Defined.

Lemma NewSet_environ_entry_as_variable_witness :
  env_with "" envName = ""
  ∧ NewSet (env_with "") ["metrics"] [prefix +:+ "v2,turbo"]
    = NewSet (env_with "v2,turbo") ["metrics"] [].
Proof.
  split; [reflexivity|].
  apply (NewSet_environ_entry_as_variable (env_with "") ["metrics"] "v2,turbo").
  reflexivity.
Defined.

End more_examples.
